(** * cycle-firebase: the Firebase driver of src/firebase.js

    A shallow embedding of [makeFirebaseDriver]: path normalisation
    ([trimPath]), the change dispatcher (the subscriber of [timeDriver]) and
    the path accessors built by [createChild], followed by the properties
    of the driver that its specification states. *)

From Stdlib Require Import Ascii Floats.
From stdpp Require Import gmap strings list.

Local Open Scope string_scope.
Local Open Scope list_scope.

(** ** JavaScript strings

    A string is its sequence of code units.  Every character the driver
    inspects ([/], [$] and the letters of [$user]) is a single unit. *)

Definition is_slash (c : ascii) : bool := Ascii.eqb c "/".

(** [s.slice(b, e)] for [0 <= b <= e]: the units at positions [b .. e-1]
    that exist. *)
Fixpoint str_take (n : nat) (s : string) : string :=
  match n, s with
  | S n', String c r => String c (str_take n' r)
  | _, _ => ""
  end.

Fixpoint str_drop (n : nat) (s : string) : string :=
  match n, s with
  | S n', String _ r => str_drop n' r
  | _, _ => s
  end.

Definition slice (b e : nat) (s : string) : string :=
  str_take (e - b) (str_drop b s).

(** [s[0]]: [None] stands for [undefined] (the empty string). *)
Definition char0 (s : string) : option ascii :=
  match s with
  | String c _ => Some c
  | "" => None
  end.

(** [s.split(`/`)]: never empty, [``.split(`/`)] is [[``]]. *)
Fixpoint split_slash (s : string) : list string :=
  match s with
  | "" => [""]
  | String c r =>
      if is_slash c then "" :: split_slash r
      else match split_slash r with
           | seg :: segs => String c seg :: segs
           | [] => [String c ""]
           end
  end.

(** ** trimPath

    [location.replace(/(^\/)|(\/$)/, ``).replace(/\/\/+/, `/`)].  Neither
    regular expression carries the [g] flag, so each [replace] rewrites the
    leftmost match only. *)

Fixpoint ends_with_slash (s : string) : bool :=
  match s with
  | "" => false
  | String c "" => is_slash c
  | String _ r => ends_with_slash r
  end.

Fixpoint drop_last (s : string) : string :=
  match s with
  | "" => ""
  | String _ "" => ""
  | String c r => String c (drop_last r)
  end.

(** [.replace(/(^\/)|(\/$)/, ``)]: the leftmost match is the slash at
    position 0 when there is one; otherwise the only possible match is a
    slash that ends the input. *)
Definition strip_edge_slash (s : string) : string :=
  match s with
  | "" => ""
  | String c r =>
      if is_slash c then r
      else if ends_with_slash s then drop_last s
      else s
  end.

Fixpoint drop_slashes (s : string) : string :=
  match s with
  | String c r => if is_slash c then drop_slashes r else s
  | "" => ""
  end.

(** [.replace(/\/\/+/, `/`)]: the leftmost run of two or more slashes,
    taken greedily, becomes one slash; later runs are left alone. *)
Fixpoint collapse_first_run (s : string) : string :=
  match s with
  | "" => ""
  | String c1 r =>
      match r with
      | String c2 r2 =>
          if is_slash c1 && is_slash c2
          then String "/" (drop_slashes r2)
          else String c1 (collapse_first_run r)
      | "" => s
      end
  end.

Definition trimPath (location : string) : string :=
  collapse_first_run (strip_edge_slash location).

(** A normalised path, as the specification describes it: no leading
    slash, no trailing slash, no repeated slash.  A segment is a non-empty
    string without a slash. *)
Definition starts_with_slash (s : string) : bool :=
  match s with
  | String c _ => is_slash c
  | "" => false
  end.

Fixpoint has_slash (s : string) : bool :=
  match s with
  | "" => false
  | String c r => is_slash c || has_slash r
  end.

Fixpoint no_slash_run (s : string) : bool :=
  match s with
  | "" => true
  | String c1 r =>
      match r with
      | String c2 _ => negb (is_slash c1 && is_slash c2) && no_slash_run r
      | "" => true
      end
  end.

Definition is_normalized (s : string) : bool :=
  negb (starts_with_slash s) && negb (ends_with_slash s) && no_slash_run s.

Definition is_segment (s : string) : bool :=
  negb (String.eqb s "") && negb (has_slash s).

(** The template literal [`${path}/${childPath}`]. *)
Definition join_path (path childPath : string) : string :=
  path +:+ "/" +:+ childPath.

(** The keys a path names, in order: its segments without the empty ones
    that leading, trailing and repeated slashes produce. *)
Definition nonempty_segments (s : string) : list string :=
  List.filter (fun seg => negb (String.eqb seg "")) (split_slash s).

(** [segs.join(`/`)] *)
Fixpoint join_slash (segs : list string) : string :=
  match segs with
  | [] => ""
  | a :: rest =>
      match rest with
      | [] => a
      | _ :: _ => a +:+ "/" +:+ join_slash rest
      end
  end.

(** Normalisation in the specification's words, "strips leading/trailing
    slashes and collapses repeated slashes": the keys of the path, joined
    by single slashes.  Two paths are the same location when their
    normalised forms are equal. *)
Definition normalize (s : string) : string :=
  join_slash (nonempty_segments s).

(** ** JavaScript values

    The data the driver forwards and inspects: snapshots, change payloads,
    authentication states and errors.  A plain object is the finite map of
    its own data properties; a function, a built-in or any other object
    the runtime or a library made is a host object, known by a name. *)

#[warnings="-register-all"]
Inductive Value : Type :=
  | VUndefined
  | VNull
  | VBool (b : bool)
  | VNum (x : float)
  | VStr (s : string)
  | VObj (fields : gmap string Value)
  | VHost (name : string).

(** ToBoolean: [undefined], [null], [false], [0], [-0], [NaN] and [``] are
    falsy. *)
Definition truthy (v : Value) : bool :=
  match v with
  | VUndefined | VNull => false
  | VBool b => b
  | VNum x => negb (PrimFloat.is_zero x || PrimFloat.is_nan x)
  | VStr s => negb (String.eqb s "")
  | VObj _ => true
  | VHost _ => true
  end.

(** [a || b] *)
Definition js_or (a b : Value) : Value := if truthy a then a else b.

(** A canonical array index: decimal digits without a leading zero. *)
Definition digit_of (c : ascii) : option nat :=
  let n := nat_of_ascii c in
  if Nat.leb 48 n && Nat.leb n 57 then Some (n - 48)%nat else None.

Fixpoint digits_value (acc : nat) (s : string) : option nat :=
  match s with
  | "" => Some acc
  | String c r =>
      match digit_of c with
      | Some d => digits_value (10 * acc + d)%nat r
      | None => None
      end
  end.

Definition array_index (k : string) : option nat :=
  match k with
  | "" => None
  | String c r =>
      if Ascii.eqb c "0" then (if String.eqb r "" then Some 0 else None)
      else digits_value 0 k
  end.

Definition num_of_nat (n : nat) : float :=
  PrimFloat.of_uint63 (Uint63.of_Z (Z.of_nat n)).

(** The members every plain object inherits from [Object.prototype]. *)
Definition object_prototype_keys : list string :=
  ["constructor"; "hasOwnProperty"; "isPrototypeOf"; "propertyIsEnumerable";
   "toLocaleString"; "toString"; "valueOf"; "__proto__";
   "__defineGetter__"; "__defineSetter__";
   "__lookupGetter__"; "__lookupSetter__"].

Definition is_inherited_key (k : string) : bool :=
  List.existsb (String.eqb k) object_prototype_keys.

(** What a plain object finds under such a key: the [Object] constructor,
    the prototype itself, or one of the prototype's functions. *)
Definition inherited_member (k : string) : Value :=
  if String.eqb k "constructor" then VHost "Object"
  else if String.eqb k "__proto__" then VHost "Object.prototype"
  else VHost ("Object.prototype." +:+ k).

(** The own data properties: the fields of a plain object, the length and
    the units of a string. *)
Definition own_prop (v : Value) (k : string) : option Value :=
  match v with
  | VObj fields => fields !! k
  | VStr s =>
      if String.eqb k "length" then Some (VNum (num_of_nat (String.length s)))
      else match array_index k with
           | Some i =>
               match String.get i s with
               | Some c => Some (VStr (String c ""))
               | None => None
               end
           | None => None
           end
  | _ => None
  end.

(** What the runtime finds beyond that: the properties of host objects,
    and what strings, numbers and booleans inherit from their prototypes.
    The built-in objects are not part of the driver; their tables are
    taken as given, and reading from them is taken to return. *)
Class Runtime : Type := runtime_get : Value -> string -> Value.

(** [v[k]] for a [v] that is neither [undefined] nor [null] (the driver
    never reads from those): an own property first, then what is
    inherited. *)
Definition get_prop {rt : Runtime} (v : Value) (k : string) : Value :=
  match own_prop v k with
  | Some x => x
  | None =>
      match v with
      | VObj _ => if is_inherited_key k then inherited_member k else VUndefined
      | VUndefined | VNull => VUndefined
      | _ => runtime_get v k
      end
  end.



(** ** Exceptions and completions *)

Inductive Exn : Type :=
  | JsError (message : string)      (* [throw new Error(message)] *)
  | TypeError (message : string)    (* raised by the runtime *)
  | Raised (reason : Value).        (* thrown by a collaborator *)

(** The three errors the driver throws itself. *)
Definition ProtocolViolation : Exn :=
  JsError "Only $set is allowed on the '$auth' location".

Definition UnknownReservedPath (dir : string) : Exn :=
  JsError ("No special key called '" +:+ dir +:+ "', I'm sorry!").

Definition InvalidArgument : Exn :=
  JsError "Required argument to .child has to be a string.".

Inductive Completion (A : Type) : Type :=
  | Normal (a : A)
  | Throw (e : Exn).
Arguments Normal {A} a.
Arguments Throw {A} e.

Definition bind {A B : Type} (c : Completion A) (k : A -> Completion B)
  : Completion B :=
  match c with
  | Normal a => k a
  | Throw e => Throw e
  end.

(** ** Store handles *)

(** [baseRef] and what [ref.child(location)] makes of it. *)
Inductive FbRef : Type :=
  | BaseRef
  | ChildOf (ref : FbRef) (location : string).

(** [getFbChild]: "prevents errors when getting using an empty path". *)
Definition getFbChild (ref : FbRef) (location : string) : FbRef :=
  if String.eqb location "" then ref else ChildOf ref location.

(** ** Changes *)

(** One element of what [getChanges] returns. *)
Record ChangeOp : Type := mkChange { location : string; value : Value }.

(** What a store authentication method hands back once it settles. *)
Inductive Fate : Type :=
  | Fulfilled
  | Rejected (error : Value).

(** The value of [method.apply(baseRef, args)], as the dispatcher looks at
    it: [result && result.then], then [result.catch]. *)
Inductive Returned : Type :=
  | NotThenable                 (* falsy, or without a truthy [then] *)
  | Promise (fate : Fate)       (* has [then] and [catch] *)
  | ThenOnly.                   (* has [then], [catch] is not callable *)

Inductive CallResult : Type :=
  | Returns (r : Returned)
  | Raises (e : Exn).

(** ** Streams

    An observable is the sequence of what it emits; the operators of the
    request pipeline act on whole sequences. *)

(** [.startWith(x)] *)
Definition startWith {A : Type} (x : A) (source : list A) : list A :=
  x :: source.

(** [.pairwise()] *)
Fixpoint pairwise {A : Type} (source : list A) : list (A * A) :=
  match source with
  | a :: rest =>
      match rest with
      | b :: _ => (a, b) :: pairwise rest
      | [] => []
      end
  | [] => []
  end.

(** The two backing streams of [specialCaseListeners]. *)
Inductive Source : Type :=
  | AuthSource      (* [auth$] *)
  | ErrorsSource.   (* [errors$] *)

(** What [get] returns. *)
Inductive Observable : Type :=
  | ValueOf (ref : FbRef)                          (* [getValue(ref)] *)
  | Mapped (source : Source) (f : Value -> Value). (* [location$.map(f)] *)

(** The emissions of an observable, given those of the store and of the
    two backing streams: [.map(f)] emits [f x] for each [x], in order. *)
Definition emissions (store : FbRef -> list Value)
    (backing : Source -> list Value) (o : Observable) : list Value :=
  match o with
  | ValueOf ref => store ref
  | Mapped source f => map f (backing source)
  end.

(** ** Path accessors

    [createChild(path)] closes over [path] only, so an accessor is that
    path; its methods take the accessor as their first argument. *)

Record Accessor : Type := createChild { path : string }.

(** [specialCaseListeners[dir]] *)
Definition specialCaseListeners (dir : string) : option Source :=
  if String.eqb dir "$user" then Some AuthSource
  else if String.eqb dir "$lastError" then Some ErrorsSource
  else None.

Section Reading.

Context {rt : Runtime}.

(** [parts.reduce((o, k) => (o || {})[k], object)] *)
Definition reduce_parts (parts : list string) (object : Value) : Value :=
  fold_left (fun o k => get_prop (js_or o (VObj ∅)) k) parts object.

(** [object => parts.reduce((o, k) => (o || {})[k], object) || null] *)
Definition pick (parts : list string) (object : Value) : Value :=
  js_or (reduce_parts parts object) VNull.

(** The location [get] and [child] compute: [trimPath(`${path}/${childPath}`)]. *)
Definition resolve (acc : Accessor) (childPath : string) : string :=
  trimPath (join_path (path acc) childPath).

(** [get: (childPath = ``) => ...]; [None] is the omitted argument. *)
Definition get (acc : Accessor) (childPath : option string)
  : Completion Observable :=
  let location := resolve acc (default "" childPath) in
  if negb (bool_decide (char0 location = Some "$"%char)) then
    Normal (ValueOf (getFbChild BaseRef location))
  else
    let dir := hd "" (split_slash location) in
    let parts := tl (split_slash location) in
    match specialCaseListeners dir with
    | None => Throw (UnknownReservedPath dir)
    | Some location' => Normal (Mapped location' (pick parts))
    end.

(** [child: childPath => ...]; the argument is any value, only a string
    passes the [typeof] test. *)
Definition child (acc : Accessor) (childPath : Value) : Completion Accessor :=
  match childPath with
  | VStr s => Normal (createChild (resolve acc s))
  | _ => Throw InvalidArgument
  end.

(** [ref: () => getFbChild(baseRef, path)] *)
Definition ref (acc : Accessor) : FbRef := getFbChild BaseRef (path acc).

(** What [timeDriver] returns: [createChild(``)]. *)
Definition root : Accessor := createChild "".

(** [acc.child(a1).child(a2)...] *)
Fixpoint descend (acc : Accessor) (segs : list string) : Completion Accessor :=
  match segs with
  | [] => Normal acc
  | a :: rest => bind (child acc (VStr a)) (fun q => descend q rest)
  end.

(** [uid$ = auth$.map(x => x ? x.uid : null)] *)
Definition uid_of (x : Value) : Value :=
  if truthy x then get_prop x "uid" else VNull.

Definition uid_stream : Observable := Mapped AuthSource uid_of.

End Reading.

(** ** The change dispatcher *)

Section Dispatcher.

(** The collaborators of the dispatcher: the store's authentication
    methods, [handleAuthentication] (a login descriptor to a method and
    its arguments, or an exception), the outcome of calling a method on
    the store after the calls made so far, and [getChanges]. *)
Context {Method : Type}.

(** What the dispatcher does to the outside, in the order it does it. *)
Inductive Effect : Type :=
  | AuthDispatched (descriptor : Value)
      (* [handleAuthentication(value)] *)
  | Invoked (method : Method) (this : FbRef) (args : list Value)
      (* [method.apply(baseRef, args)] *)
  | StoreSet (target : FbRef) (payload : Value).
      (* [target.set(payload)] *)

(** The calls made so far, and the promises that carry the dispatcher's
    [catch] callback. *)
Record World : Type := mkWorld {
  log : list Effect;
  watched : list Fate
}.

Definition record (ev : Effect) (w : World) : World :=
  mkWorld (log w ++ [ev]) (watched w).

Definition watch (fate : Fate) (w : World) : World :=
  mkWorld (log w) (watched w ++ [fate]).

(** What the [catch] callbacks push with [errors$.onNext(error)] once
    every watched promise has settled: the reasons of the rejected ones
    (listed by registration; the order of arrival is the order in which
    the promises settle). *)
Definition rejection (fate : Fate) : option Value :=
  match fate with
  | Rejected error => Some error
  | Fulfilled => None
  end.

Definition errors_pushed (w : World) : list Value :=
  omap rejection (watched w).

(** A step of the dispatcher ends normally or by an exception; either
    way the calls made before stay made. *)
Inductive Outcome : Type :=
  | Done (w : World)
  | Thrown (e : Exn) (w : World).

Definition world_of (o : Outcome) : World :=
  match o with
  | Done w => w
  | Thrown _ w => w
  end.

Context (handleAuthentication : Value -> Completion (Method * list Value)).
Context (invoke : list Effect -> Method -> list Value -> CallResult).
Context (getChanges : Value -> Value -> list ChangeOp).

(** The body of [changes.forEach(({location, value}) => ...)].  The store
    client's [child] and [set] are recorded and taken to return; what
    [set] returns is not looked at. *)
Definition apply_change (c : ChangeOp) (w : World) : Outcome :=
  if String.eqb (slice 0 5 (location c)) "$user" then
    if negb (String.eqb (location c) "$user") then
      Thrown ProtocolViolation w
    else
      let w1 := record (AuthDispatched (value c)) w in
      match handleAuthentication (value c) with
      | Throw e => Thrown e w1
      | Normal (method, args) =>
          let w2 := record (Invoked method BaseRef args) w1 in
          match invoke (log w1) method args with
          | Raises e => Thrown e w2
          | Returns NotThenable => Done w2
          | Returns (Promise fate) => Done (watch fate w2)
          | Returns ThenOnly =>
              Thrown (TypeError "result.catch is not a function") w2
          end
      end
  else
    Done (record (StoreSet (ChildOf BaseRef (location c)) (value c)) w).

(** [changes.forEach(f)]: an exception leaves the loop. *)
Fixpoint forEach (f : ChangeOp -> World -> Outcome)
    (changes : list ChangeOp) (w : World) : Outcome :=
  match changes with
  | [] => Done w
  | c :: rest =>
      match f c w with
      | Done w' => forEach f rest w'
      | Thrown e w' => Thrown e w'
      end
  end.

(** [.subscribe(onNext)]: each emission is handed to [onNext] in turn; an
    exception that escapes [onNext] ends the subscription. *)
Fixpoint subscribe {A : Type} (onNext : A -> World -> Outcome)
    (source : list A) (w : World) : Outcome :=
  match source with
  | [] => Done w
  | x :: rest =>
      match onNext x w with
      | Done w' => subscribe onNext rest w'
      | Thrown e w' => Thrown e w'
      end
  end.

(** The request side of [timeDriver(source$)]:
    [source$.startWith({}).pairwise().map(...).subscribe(...)]. *)
Definition timeDriver (source : list Value) (w : World) : Outcome :=
  subscribe (fun changes => forEach apply_change changes)
    (map (fun '(prevState, nextState) => getChanges prevState nextState)
       (pairwise (startWith (VObj ∅) source)))
    w.

(** The dispatcher's contract in the specification's words: the first
    snapshot is compared with the empty tree, each later one with its
    predecessor, and the changes of all pairs form one sequence. *)
Fixpoint changes_from (prev : Value) (snapshots : list Value)
  : list ChangeOp :=
  match snapshots with
  | [] => []
  | next :: later => getChanges prev next ++ changes_from next later
  end.

(** Applying a sequence of changes one after the other, stopping at the
    first exception. *)
Fixpoint apply_in_order (changes : list ChangeOp) (w : World) : Outcome :=
  match changes with
  | [] => Done w
  | c :: rest =>
      match apply_change c w with
      | Done w' => apply_in_order rest w'
      | Thrown e w' => Thrown e w'
      end
  end.

(** The store writes among the effects. *)
Definition store_writes (evs : list Effect) : list (FbRef * Value) :=
  omap (fun ev =>
          match ev with
          | StoreSet target payload => Some (target, payload)
          | _ => None
          end) evs.

(** The changes the dispatcher hands to the store, and the write each one
    makes. *)
Definition is_store_change (c : ChangeOp) : bool :=
  negb (String.eqb (slice 0 5 (location c)) "$user").

Definition to_write (c : ChangeOp) : FbRef * Value :=
  (ChildOf BaseRef (location c), value c).

End Dispatcher.

(** ** Stand-in collaborators

    Concrete collaborators at which the properties below are exercised:
    methods are named by strings, signing in with a password is rejected
    by the store, and every new snapshot is written whole at [a]. *)

Module Samples.

Definition handleAuthentication (descriptor : Value)
  : Completion (string * list Value) :=
  match descriptor with
  | VNull => Normal ("unauth", [])
  | VObj _ => Normal ("authWithPassword", [descriptor])
  | _ => Throw (JsError "Unsupported authentication method")
  end.

Definition invoke (_ : list (@Effect string)) (method : string)
    (_ : list Value) : CallResult :=
  if String.eqb method "authWithPassword"
  then Returns (Promise (Rejected (VStr "INVALID_PASSWORD")))
  else Returns NotThenable.

Definition getChanges (_ next : Value) : list ChangeOp :=
  [mkChange "a" next].

Definition credentials : Value :=
  VObj (<["provider" := VStr "password"]> ∅).

(** A result with [then] and without [catch]. *)
Definition invoke_then_only (_ : list (@Effect string)) (_ : string)
    (_ : list Value) : CallResult :=
  Returns ThenOnly.

(** A fragment of a runtime: the [Object] constructor is named
    [Object]. *)
Definition runtime : Runtime :=
  fun v k =>
    match v with
    | VHost host =>
        if String.eqb host "Object" && String.eqb k "name"
        then VStr "Object" else VUndefined
    | _ => VUndefined
    end.

Definition nowhere : @World string := mkWorld [] [].

Definition sign_in : ChangeOp := mkChange "$user" credentials.
Definition deep_write : ChangeOp := mkChange "$user/name" (VStr "Ann").
Definition lookalike : ChangeOp := mkChange "$username" (VStr "Ann").
Definition plain_write : ChangeOp := mkChange "users/ann" (VStr "Ann").

(** An authentication state with a falsy field. *)
Definition signed_in : Value :=
  VObj (<["uid" := VStr "u1"]> (<["visits" := VNum 0%float]> ∅)).

End Samples.

(** * Properties *)

(** ** Strings and paths *)

Lemma slice_user_prefix (s : string) :
  String.eqb (slice 0 5 s) "$user" = true <-> exists rest, s = "$user" +:+ rest.
Proof.
  split.
  - intros H. apply String.eqb_eq in H. unfold slice in H.
    destruct s as [|c1 [|c2 [|c3 [|c4 [|c5 r]]]]]; simpl in H;
      try discriminate.
    injection H as -> -> -> -> ->. now exists r.
  - intros [rest ->]. reflexivity.
Qed.

Lemma split_slash_nonempty (s : string) : split_slash s <> [].
Proof.
  destruct s as [|c r]; simpl; [discriminate|].
  destruct (is_slash c); [discriminate|].
  destruct (split_slash r); discriminate.
Qed.

(** The first segment starts like the whole string, unless it is empty. *)
Lemma char0_first_segment (s : string) (c : ascii) :
  char0 (hd "" (split_slash s)) = Some c -> char0 s = Some c.
Proof.
  destruct s as [|c0 r]; simpl; [discriminate|].
  destruct (is_slash c0); simpl; [discriminate|].
  destruct (split_slash r); simpl; auto.
Qed.

Lemma specialCaseListeners_dollar (dir : string) (source : Source) :
  specialCaseListeners dir = Some source -> char0 dir = Some "$"%char.
Proof.
  unfold specialCaseListeners.
  destruct (String.eqb dir "$user") eqn:E1.
  - apply String.eqb_eq in E1. now subst.
  - destruct (String.eqb dir "$lastError") eqn:E2; [|discriminate].
    apply String.eqb_eq in E2. now subst.
Qed.

Lemma specialCaseListeners_none (dir : string) :
  dir <> "$user" -> dir <> "$lastError" -> specialCaseListeners dir = None.
Proof.
  intros H1 H2. unfold specialCaseListeners.
  destruct (String.eqb dir "$user") eqn:E1.
  - apply String.eqb_eq in E1. contradiction.
  - destruct (String.eqb dir "$lastError") eqn:E2; [|reflexivity].
    apply String.eqb_eq in E2. contradiction.
Qed.

Lemma append_cons (c : ascii) (r s : string) :
  String c r +:+ s = String c (r +:+ s).
Proof. reflexivity. Qed.

Lemma append_assoc (x y z : string) : (x +:+ y) +:+ z = x +:+ (y +:+ z).
Proof.
  induction x as [|c x IH]; [reflexivity|].
  rewrite !append_cons. now rewrite IH.
Qed.

Lemma collapse_first_run_cons (c1 c2 : ascii) (r : string) :
  collapse_first_run (String c1 (String c2 r))
  = if is_slash c1 && is_slash c2
    then String "/" (drop_slashes r)
    else String c1 (collapse_first_run (String c2 r)).
Proof. reflexivity. Qed.

Lemma no_slash_run_cons (c1 c2 : ascii) (r : string) :
  no_slash_run (String c1 (String c2 r))
  = negb (is_slash c1 && is_slash c2) && no_slash_run (String c2 r).
Proof. reflexivity. Qed.

Lemma collapse_no_run (s : string) :
  no_slash_run s = true -> collapse_first_run s = s.
Proof.
  induction s as [|c1 r IH]; [reflexivity|].
  destruct r as [|c2 r2]; [reflexivity|].
  rewrite no_slash_run_cons, collapse_first_run_cons.
  intros H. apply andb_prop in H as [Hpair Hrest].
  apply negb_true_iff in Hpair. rewrite Hpair.
  now rewrite (IH Hrest).
Qed.

Lemma strip_no_edge (s : string) :
  starts_with_slash s = false -> ends_with_slash s = false ->
  strip_edge_slash s = s.
Proof.
  destruct s as [|c r]; [reflexivity|].
  intros Hstart Hend. unfold strip_edge_slash.
  cbn [starts_with_slash] in Hstart. now rewrite Hstart, Hend.
Qed.

(** [trimPath] leaves a normalised path as it is. *)
Lemma trimPath_normalized (s : string) :
  is_normalized s = true -> trimPath s = s.
Proof.
  unfold is_normalized. intros H.
  apply andb_prop in H as [H Hrun]. apply andb_prop in H as [Hstart Hend].
  apply negb_true_iff in Hstart, Hend.
  unfold trimPath. rewrite (strip_no_edge s Hstart Hend).
  now apply collapse_no_run.
Qed.

Lemma ends_with_slash_append (x y : string) :
  y <> "" -> ends_with_slash (x +:+ y) = ends_with_slash y.
Proof.
  intros Hy. induction x as [|c x IH]; [reflexivity|].
  rewrite append_cons. cbn [ends_with_slash].
  destruct (x +:+ y) eqn:E; [|exact IH].
  destruct x; [|discriminate E]. now destruct y.
Qed.

Lemma no_slash_run_append (x y : string) :
  no_slash_run x = true -> no_slash_run y = true ->
  ends_with_slash x = false \/ starts_with_slash y = false ->
  no_slash_run (x +:+ y) = true.
Proof.
  intros Hx Hy Hedge. induction x as [|c1 r IH]; [exact Hy|].
  rewrite append_cons.
  destruct r as [|c2 r2].
  - destruct y as [|d y']; [reflexivity|].
    change ("" +:+ String d y') with (String d y').
    rewrite no_slash_run_cons.
    apply andb_true_intro. split; [|exact Hy].
    apply negb_true_iff. cbn [ends_with_slash starts_with_slash] in Hedge.
    destruct Hedge as [-> | ->]; [reflexivity|]. apply andb_false_r.
  - rewrite append_cons, no_slash_run_cons.
    rewrite no_slash_run_cons in Hx.
    apply andb_prop in Hx as [Hpair Hrest].
    apply andb_true_intro. split; [exact Hpair|].
    rewrite <- append_cons. apply IH; [exact Hrest|].
    destruct Hedge as [He | Hs]; [left | now right].
    exact He.
Qed.

Lemma segment_shape (a : string) :
  is_segment a = true ->
  a <> "" /\ starts_with_slash a = false /\ ends_with_slash a = false
  /\ no_slash_run a = true.
Proof.
  unfold is_segment. intros H. apply andb_prop in H as [Hne Hno].
  apply negb_true_iff in Hne, Hno.
  split; [intros ->; discriminate Hne|].
  clear Hne. split; [|split].
  - destruct a as [|c r]; [reflexivity|]. cbn in Hno |- *.
    now apply orb_false_elim in Hno as [-> _].
  - induction a as [|c r IH]; [reflexivity|]. cbn [has_slash] in Hno.
    apply orb_false_elim in Hno as [Hc Hr]. cbn [ends_with_slash].
    destruct r; [exact Hc | now apply IH].
  - induction a as [|c r IH]; [reflexivity|]. cbn [has_slash] in Hno.
    apply orb_false_elim in Hno as [Hc Hr]. cbn [no_slash_run].
    destruct r; [reflexivity|]. rewrite Hc. cbn [andb negb]. now apply IH.
Qed.

(** Joining a segment to a normalised, non-empty path keeps it
    normalised. *)
Lemma join_normalized (p a : string) :
  is_normalized p = true -> p <> "" -> is_segment a = true ->
  is_normalized (join_path p a) = true.
Proof.
  intros Hp Hne Ha. apply segment_shape in Ha as (Hane & Hstart & Hend & Hrun).
  unfold is_normalized in Hp.
  apply andb_prop in Hp as [Hp Hprun]. apply andb_prop in Hp as [Hps Hpe].
  apply negb_true_iff in Hps, Hpe.
  unfold is_normalized, join_path.
  apply andb_true_intro. split; [apply andb_true_intro; split|].
  - destruct p as [|c r]; [contradiction|]. rewrite append_cons.
    cbn [starts_with_slash] in Hps |- *. now rewrite Hps.
  - rewrite <- append_assoc. rewrite ends_with_slash_append by exact Hane.
    now rewrite Hend.
  - apply no_slash_run_append; [exact Hprun| |now left].
    apply (no_slash_run_append "/" a); [reflexivity|exact Hrun|now right].
Qed.

Lemma segment_normalized (a : string) :
  is_segment a = true -> is_normalized a = true.
Proof.
  intros Ha. apply segment_shape in Ha as (_ & Hstart & Hend & Hrun).
  unfold is_normalized. now rewrite Hstart, Hend, Hrun.
Qed.

Lemma join_path_assoc (p a b : string) :
  join_path (join_path p a) b = join_path p (a +:+ "/" +:+ b).
Proof. unfold join_path. now rewrite !append_assoc. Qed.

Lemma join_path_nonempty (p a : string) : join_path p a <> "".
Proof. unfold join_path. destruct p; discriminate. Qed.

(** What [child] and [get] resolve from a normalised path and a segment. *)
Lemma resolve_segment (p a : string) :
  is_normalized p = true -> is_segment a = true ->
  trimPath (join_path p a) = (if String.eqb p "" then a else join_path p a)
  /\ is_normalized (trimPath (join_path p a)) = true.
Proof.
  intros Hp Ha. destruct p as [|c r].
  - change (join_path "" a) with (String "/" a).
    assert (E : trimPath (String "/" a) = a).
    { unfold trimPath. change (strip_edge_slash (String "/" a)) with a.
      apply collapse_no_run. now apply segment_shape in Ha. }
    rewrite E. split; [reflexivity | now apply segment_normalized].
  - assert (N : is_normalized (join_path (String c r) a) = true)
      by (apply join_normalized; [exact Hp | discriminate | exact Ha]).
    rewrite (trimPath_normalized _ N). split; [reflexivity | exact N].
Qed.

(** ** The structural walk *)

Section WalkProperties.

Context {rt : Runtime}.


(** A plain object without the key gives [undefined], unless every object
    inherits the key. *)
Lemma get_prop_missing (fields : gmap string Value) (k : string) :
  fields !! k = None -> is_inherited_key k = false ->
  get_prop (VObj fields) k = VUndefined.
Proof. intros Hown Hk. unfold get_prop. cbn [own_prop]. now rewrite Hown, Hk. Qed.

Lemma reduce_parts_app (before after : list string) (object : Value) :
  reduce_parts (before ++ after) object
  = reduce_parts after (reduce_parts before object).
Proof. unfold reduce_parts. apply fold_left_app. Qed.




Lemma pick_falsy (parts : list string) (object : Value) :
  truthy (reduce_parts parts object) = false -> pick parts object = VNull.
Proof. intros H. unfold pick, js_or. now rewrite H. Qed.

Lemma pick_truthy (parts : list string) (object : Value) :
  truthy (reduce_parts parts object) = true ->
  pick parts object = reduce_parts parts object.
Proof. intros H. unfold pick, js_or. now rewrite H. Qed.

End WalkProperties.

(** ** The dispatcher *)

Section DispatcherProperties.

Context {Method : Type}.
Context (handleAuthentication : Value -> Completion (Method * list Value)).
Context (invoke : list (@Effect Method) -> Method -> list Value -> CallResult).
Context (getChanges : Value -> Value -> list ChangeOp).

Local Abbreviation step := (apply_change handleAuthentication invoke).
Local Abbreviation in_order := (apply_in_order handleAuthentication invoke).

Lemma forEach_apply_in_order (changes : list ChangeOp) (w : World) :
  forEach step changes w = in_order changes w.
Proof.
  revert w. induction changes as [|c rest IH]; intros w; simpl; [reflexivity|].
  destruct (step c w); [apply IH | reflexivity].
Qed.

Lemma apply_in_order_app (first second : list ChangeOp) (w : World) :
  in_order (first ++ second) w
  = match in_order first w with
    | Done w' => in_order second w'
    | Thrown e w' => Thrown e w'
    end.
Proof.
  revert w. induction first as [|c rest IH]; intros w; simpl; [reflexivity|].
  destruct (step c w); [apply IH | reflexivity].
Qed.

(** The pipeline started from any previous snapshot. *)
Lemma subscribe_pairs (prev : Value) (source : list Value) (w : World) :
  subscribe (fun changes => forEach step changes)
    (map (fun '(prevState, nextState) => getChanges prevState nextState)
       (pairwise (prev :: source))) w
  = in_order (changes_from getChanges prev source) w.
Proof.
  revert prev w. induction source as [|next later IH]; intros prev w.
  - reflexivity.
  - change (pairwise (prev :: next :: later))
      with ((prev, next) :: pairwise (next :: later)).
    cbn [map subscribe changes_from].
    rewrite apply_in_order_app, forEach_apply_in_order.
    destruct (in_order (getChanges prev next) w); [apply IH | reflexivity].
Qed.

(** A change outside the [$user] characters is one store write. *)
Lemma apply_store_write (c : ChangeOp) (w : World) :
  String.eqb (slice 0 5 (location c)) "$user" = false ->
  step c w
  = Done (record (StoreSet (ChildOf BaseRef (location c)) (value c)) w).
Proof. intros H. unfold apply_change. now rewrite H. Qed.

Lemma apply_in_order_store_writes (changes : list ChangeOp) (w : World) :
  Forall (fun c => String.eqb (slice 0 5 (location c)) "$user" = false)
    changes ->
  in_order changes w
  = Done (mkWorld
            (log w ++ map (fun c => StoreSet (ChildOf BaseRef (location c))
                                      (value c)) changes)
            (watched w)).
Proof.
  intros H. revert w. induction H as [|c rest Hc _ IH]; intros w; simpl.
  - rewrite app_nil_r. now destruct w.
  - rewrite (apply_store_write c w Hc), IH. simpl.
    now rewrite <- app_assoc.
Qed.

(** C1. A change whose location begins with [$user] without being
    exactly [$user] (such as [$user/name]) makes the apply step throw the
    protocol-violation error at once: nothing is written to the store and
    no authentication call is made, the world is as it was. *)
Theorem deep_user_write_throws (c : ChangeOp) (w : World) :
  (exists rest, location c = "$user" +:+ rest) ->
  location c <> "$user" ->
  step c w = Thrown ProtocolViolation w
  /\ log (world_of (step c w)) = log w
  /\ watched (world_of (step c w)) = watched w.
Proof.
  intros Hpre Hne.
  assert (E : step c w = Thrown ProtocolViolation w).
  { unfold apply_change.
    apply slice_user_prefix in Hpre. rewrite Hpre.
    destruct (String.eqb (location c) "$user") eqn:E; [|reflexivity].
    apply String.eqb_eq in E. contradiction. }
  rewrite E. auto.
Qed.

(** C2. A change at exactly [$user] never reaches the store's [set]: its
    value goes to [handleAuthentication], and the method that comes back
    is invoked on the base handle with the arguments that come back (when
    [handleAuthentication] throws, its exception leaves the step after
    that one call).  A change whose location does not begin with [$user]
    is exactly one store write, [set(value)] on the child of the base
    handle at that location. *)
Theorem change_routing (c : ChangeOp) (w : World) :
  (location c = "$user" ->
   store_writes (log (world_of (step c w))) = store_writes (log w)
   /\ match handleAuthentication (value c) with
      | Normal (method, args) =>
          log (world_of (step c w))
          = log w ++ [AuthDispatched (value c); Invoked method BaseRef args]
      | Throw e =>
          step c w = Thrown e (record (AuthDispatched (value c)) w)
      end)
  /\ ((~ exists rest, location c = "$user" +:+ rest) ->
      step c w
      = Done (record (StoreSet (ChildOf BaseRef (location c)) (value c)) w)
      /\ store_writes (log (world_of (step c w)))
         = store_writes (log w) ++ [(ChildOf BaseRef (location c), value c)]).
Proof.
  split.
  - intros Hloc. unfold apply_change. rewrite Hloc. simpl.
    destruct (handleAuthentication (value c)) as [[method args]|e]; simpl.
    + destruct (invoke _ method args) as [[|fate|]|e]; simpl;
        unfold store_writes; rewrite <- !app_assoc, !omap_app; simpl;
        rewrite ?app_nil_r; auto.
    + unfold store_writes. rewrite omap_app. simpl.
      now rewrite app_nil_r.
  - intros Hnot.
    assert (E : String.eqb (slice 0 5 (location c)) "$user" = false).
    { destruct (String.eqb (slice 0 5 (location c)) "$user") eqn:E;
        [|reflexivity].
      apply slice_user_prefix in E. contradiction. }
    rewrite (apply_store_write c w E). split; [reflexivity|].
    simpl. unfold store_writes. now rewrite omap_app.
Qed.

(** C7. When the authentication operation dispatched for a [$user] change
    returns a promise (a result with [then] and a callable [catch]) that
    is rejected, the apply step ends normally, not by an exception; the rejection reason is among what the [catch]
    callback pushes onto [errors$]; and the dispatcher goes on with the
    remaining changes of the batch and with the following batches. *)
Theorem auth_rejection_to_errors (c : ChangeOp) (w : World)
    (method : Method) (args : list Value) (error : Value) :
  location c = "$user" ->
  handleAuthentication (value c) = Normal (method, args) ->
  invoke (log w ++ [AuthDispatched (value c)]) method args
  = Returns (Promise (Rejected error)) ->
  exists w',
    step c w = Done w'
    /\ errors_pushed w' = errors_pushed w ++ [error]
    /\ log w' = log w ++ [AuthDispatched (value c); Invoked method BaseRef args]
    /\ (forall rest, forEach step (c :: rest) w = forEach step rest w')
    /\ (forall rest batches,
          subscribe (fun changes => forEach step changes)
            ((c :: rest) :: batches) w
          = subscribe (fun changes => forEach step changes)
              (rest :: batches) w').
Proof.
  intros Hloc Hauth Hcall.
  assert (E : step c w
              = Done (watch (Rejected error)
                        (record (Invoked method BaseRef args)
                           (record (AuthDispatched (value c)) w)))).
  { unfold apply_change. rewrite Hloc. simpl. rewrite Hauth. simpl.
    now rewrite Hcall. }
  eexists. split; [exact E|].
  split; [|split; [|split]].
  - unfold errors_pushed. simpl. now rewrite omap_app.
  - simpl. now rewrite <- app_assoc.
  - intros rest. simpl. now rewrite E.
  - intros rest batches. simpl. now rewrite E.
Qed.

(** C8. The dispatcher compares the first snapshot with the empty tree
    and every later snapshot with its predecessor, and applies the
    changes [getChanges] returns for each pair one by one, pair after pair
    and in the order returned: running the pipeline is applying the
    concatenated change sequences in order.  When no change lies under
    [$user], the store receives exactly those writes, in that order. *)
Theorem timeDriver_applies_in_order (source : list Value) (w : World) :
  timeDriver handleAuthentication invoke getChanges source w
  = in_order (changes_from getChanges (VObj ∅) source) w
  /\ (forall first later,
        source = first :: later ->
        changes_from getChanges (VObj ∅) source
        = getChanges (VObj ∅) first ++ changes_from getChanges first later)
  /\ (Forall (fun c => String.eqb (slice 0 5 (location c)) "$user" = false)
        (changes_from getChanges (VObj ∅) source) ->
      timeDriver handleAuthentication invoke getChanges source w
      = Done (mkWorld
                (log w ++ map (fun c => StoreSet (ChildOf BaseRef (location c))
                                          (value c))
                           (changes_from getChanges (VObj ∅) source))
                (watched w))).
Proof.
  assert (E : timeDriver handleAuthentication invoke getChanges source w
              = in_order (changes_from getChanges (VObj ∅) source) w)
    by apply subscribe_pairs.
  split; [exact E|]. split.
  - intros first later ->. reflexivity.
  - intros Hall. rewrite E. now apply apply_in_order_store_writes.
Qed.

(** C9. The dispatcher's test looks at the first five characters of the
    location, not at its first segment: a change whose location starts
    with the characters [$user] while its first segment is another key
    (such as [$username] or [$users/x]) throws the protocol-violation
    error, and nothing is written to the store. *)
Theorem user_prefix_by_characters (c : ChangeOp) (w : World) :
  (exists rest, location c = "$user" +:+ rest) ->
  hd "" (split_slash (location c)) <> "$user" ->
  step c w = Thrown ProtocolViolation w
  /\ step c w
     <> Done (record (StoreSet (ChildOf BaseRef (location c)) (value c)) w)
  /\ store_writes (log (world_of (step c w))) = store_writes (log w).
Proof.
  intros Hpre Hseg.
  assert (E : step c w = Thrown ProtocolViolation w).
  { unfold apply_change.
    apply slice_user_prefix in Hpre. rewrite Hpre.
    destruct (String.eqb (location c) "$user") eqn:E; [|reflexivity].
    apply String.eqb_eq in E. rewrite E in Hseg. now contradiction Hseg. }
  rewrite E. split; [reflexivity|]. split; [discriminate|reflexivity].
Qed.

End DispatcherProperties.

(** ** Path normalisation and accessors *)

(** C3. [trimPath] does not normalise every path: each of its two
    replacements rewrites one match only.  On [/a//b/] the leading slash
    goes and the trailing one stays, so the result is [a/b/], not [a/b];
    a second run of slashes and a second leading slash survive as well. *)
Theorem trimPath_first_match_only :
  trimPath "/a//b/" = "a/b/"
  /\ trimPath "/a//b/" <> "a/b"
  /\ trimPath "a//b//c" = "a/b//c"
  /\ trimPath "//a" = "/a".
Proof. repeat split; try reflexivity. discriminate. Qed.

(** The path strings of the two compositions need not be equal: on the
    accessor [child(`x//y//z//w`)] of the root, whose path keeps a run of
    slashes, [child(`a`).child(`b`)] holds [x/y/z/w/a/b] and
    [child(`a/b`)] holds [x/y/z//w/a/b].  They differ in a redundant slash
    only; their normalised forms are equal. *)
Remark child_composition_diverges :
  exists p : Accessor,
    child root (VStr "x//y//z//w") = Normal p
    /\ path p = "x/y//z//w"
    /\ bind (child p (VStr "a")) (fun q => child q (VStr "b"))
       = Normal (createChild "x/y/z/w/a/b")
    /\ child p (VStr ("a" +:+ "/" +:+ "b"))
       = Normal (createChild "x/y/z//w/a/b")
    /\ bind (child p (VStr "a")) (fun q => child q (VStr "b"))
       <> child p (VStr ("a" +:+ "/" +:+ "b"))
    /\ ref (createChild "x/y/z/w/a/b") <> ref (createChild "x/y/z//w/a/b").
Proof.
  eexists. split; [reflexivity|]. repeat split; try reflexivity; discriminate.
Qed.

(** X5. On accessors bound to a normalised path, and for segments,
    composing [child] does agree with one [child] on the joined path, and
    the accessor reached is again bound to a normalised path. *)
Lemma child_composition_normalized (acc : Accessor) (a b : string) :
  is_normalized (path acc) = true ->
  is_segment a = true -> is_segment b = true ->
  bind (child acc (VStr a)) (fun q => child q (VStr b))
  = child acc (VStr (a +:+ "/" +:+ b))
  /\ exists q, child acc (VStr (a +:+ "/" +:+ b)) = Normal q
              /\ is_normalized (path q) = true.
Proof.
  intros Hp Ha Hb. destruct acc as [p]. cbn [path] in Hp.
  cbn [child bind]. unfold resolve. cbn [path].
  destruct (resolve_segment p a Hp Ha) as [Ea Na].
  destruct (resolve_segment _ b Na Hb) as [Eb Nb].
  assert (E : trimPath (join_path (trimPath (join_path p a)) b)
              = trimPath (join_path p (a +:+ "/" +:+ b))).
  { destruct p as [|c r].
    - cbn [String.eqb] in Ea. rewrite Ea.
      change (join_path "" (a +:+ "/" +:+ b)) with (String "/" (join_path a b)).
      assert (N : is_normalized (join_path a b) = true).
      { apply join_normalized; [now apply segment_normalized| |exact Hb].
        now apply segment_shape in Ha. }
      rewrite (trimPath_normalized _ N).
      unfold trimPath.
      change (strip_edge_slash (String "/" (join_path a b)))
        with (join_path a b).
      symmetry. apply collapse_no_run.
      unfold is_normalized in N. now apply andb_prop in N as [_ N].
    - cbn [String.eqb] in Ea. rewrite Ea. now rewrite join_path_assoc. }
  split; [now rewrite E|].
  eexists. split; [reflexivity|]. cbn [path]. rewrite <- E. exact Nb.
Qed.

Section ReadingProperties.

Context {rt : Runtime}.

(** C5. When the location [get] resolves starts with [$] and its first
    segment is neither [$user] nor [$lastError] (as for [get(`$nope`)]),
    the call itself throws the unknown-key error and returns no stream. *)
Theorem get_unknown_reserved_throws (acc : Accessor)
    (childPath : option string) :
  char0 (resolve acc (default "" childPath)) = Some "$"%char ->
  hd "" (split_slash (resolve acc (default "" childPath))) <> "$user" ->
  hd "" (split_slash (resolve acc (default "" childPath))) <> "$lastError" ->
  get acc childPath
  = Throw (UnknownReservedPath
             (hd "" (split_slash (resolve acc (default "" childPath)))))
  /\ forall o, get acc childPath <> Normal o.
Proof.
  intros Hdollar Huser Herr.
  assert (E : get acc childPath
              = Throw (UnknownReservedPath
                  (hd "" (split_slash (resolve acc (default "" childPath)))))).
  { unfold get. rewrite Hdollar.
    rewrite bool_decide_eq_true_2 by reflexivity. simpl.
    now rewrite (specialCaseListeners_none _ Huser Herr). }
  split; [exact E|]. intros o. rewrite E. discriminate.
Qed.


(** C10. On a read under [$user] or [$lastError], when the field the walk
    reaches holds [0], [false], the empty string or [NaN], the derived
    stream emits [null] in its place (the final [|| null]); a truthy field
    is emitted as it is. *)
Theorem pick_falsy_null (acc : Accessor) (childPath : option string)
    (source : Source) (f : Value -> Value) (object reached : Value) :
  get acc childPath = Normal (Mapped source f) ->
  reached = reduce_parts
              (tl (split_slash (resolve acc (default "" childPath)))) object ->
  (reached ∈ [VNum 0%float; VBool false; VStr ""; VNum PrimFloat.nan] ->
   f object = VNull)
  /\ (truthy reached = true -> f object = reached).
Proof.
  intros Hget ->. unfold get in Hget.
  destruct (negb _); [discriminate|].
  destruct (specialCaseListeners _); [|discriminate].
  injection Hget as _ <-.
  split.
  - intros Hin. apply pick_falsy.
    repeat (apply elem_of_cons in Hin as [-> | Hin]; [reflexivity|]).
    now apply elem_of_nil in Hin.
  - apply pick_truthy.
Qed.

End ReadingProperties.

(** ** The properties at concrete inputs *)

Section ClaimInstances.

#[local] Existing Instance Samples.runtime.

Lemma deep_user_write_throws_witness :
  (exists rest, location Samples.deep_write = "$user" +:+ rest)
  /\ location Samples.deep_write <> "$user"
  /\ apply_change Samples.handleAuthentication Samples.invoke
       Samples.deep_write Samples.nowhere
     = Thrown ProtocolViolation Samples.nowhere.
Proof.
  assert (H1 : exists rest, location Samples.deep_write = "$user" +:+ rest)
    by (exists "/name"; reflexivity).
  assert (H2 : location Samples.deep_write <> "$user") by discriminate.
  split; [exact H1|]. split; [exact H2|].
  exact (proj1 (deep_user_write_throws Samples.handleAuthentication
                  Samples.invoke Samples.deep_write Samples.nowhere H1 H2)).
Defined.

Lemma change_routing_witness :
  location Samples.sign_in = "$user"
  /\ log (world_of (apply_change Samples.handleAuthentication Samples.invoke
                      Samples.sign_in Samples.nowhere))
     = [AuthDispatched Samples.credentials;
        Invoked "authWithPassword" BaseRef [Samples.credentials]]
  /\ (~ exists rest, location Samples.plain_write = "$user" +:+ rest)
  /\ apply_change Samples.handleAuthentication Samples.invoke
       Samples.plain_write Samples.nowhere
     = Done (record (StoreSet (ChildOf BaseRef "users/ann") (VStr "Ann"))
               Samples.nowhere).
Proof.
  assert (H2 : ~ exists rest, location Samples.plain_write = "$user" +:+ rest)
    by (intros [rest H]; discriminate H).
  split; [reflexivity|]. split; [|split; [exact H2|]].
  - exact (proj2 (proj1 (change_routing Samples.handleAuthentication
                           Samples.invoke Samples.sign_in Samples.nowhere)
                    eq_refl)).
  - exact (proj1 (proj2 (change_routing Samples.handleAuthentication
                           Samples.invoke Samples.plain_write Samples.nowhere)
                    H2)).
Defined.

Lemma auth_rejection_to_errors_witness :
  location Samples.sign_in = "$user"
  /\ Samples.handleAuthentication (value Samples.sign_in)
     = Normal ("authWithPassword", [Samples.credentials])
  /\ Samples.invoke
       (log Samples.nowhere ++ [AuthDispatched (value Samples.sign_in)])
       "authWithPassword" [Samples.credentials]
     = Returns (Promise (Rejected (VStr "INVALID_PASSWORD")))
  /\ exists w',
       apply_change Samples.handleAuthentication Samples.invoke
         Samples.sign_in Samples.nowhere = Done w'
       /\ errors_pushed w' = [VStr "INVALID_PASSWORD"].
Proof.
  split; [reflexivity|]. split; [reflexivity|]. split; [reflexivity|].
  destruct (auth_rejection_to_errors Samples.handleAuthentication
              Samples.invoke Samples.sign_in Samples.nowhere
              "authWithPassword" [Samples.credentials]
              (VStr "INVALID_PASSWORD") eq_refl eq_refl eq_refl)
    as (w' & Hdone & Herr & _).
  exists w'. split; [exact Hdone | exact Herr].
Defined.

Lemma timeDriver_applies_in_order_witness :
  Forall (fun c => String.eqb (slice 0 5 (location c)) "$user" = false)
    (changes_from Samples.getChanges (VObj ∅) [VStr "one"; VStr "two"])
  /\ timeDriver Samples.handleAuthentication Samples.invoke
       Samples.getChanges [VStr "one"; VStr "two"] Samples.nowhere
     = Done (mkWorld [StoreSet (ChildOf BaseRef "a") (VStr "one");
                      StoreSet (ChildOf BaseRef "a") (VStr "two")] []).
Proof.
  assert (H : Forall
                (fun c => String.eqb (slice 0 5 (location c)) "$user" = false)
                (changes_from Samples.getChanges (VObj ∅)
                   [VStr "one"; VStr "two"]))
    by (repeat constructor).
  split; [exact H|].
  exact (proj2 (proj2 (timeDriver_applies_in_order
                         Samples.handleAuthentication Samples.invoke
                         Samples.getChanges [VStr "one"; VStr "two"]
                         Samples.nowhere)) H).
Defined.

Lemma user_prefix_by_characters_witness :
  (exists rest, location Samples.lookalike = "$user" +:+ rest)
  /\ hd "" (split_slash (location Samples.lookalike)) <> "$user"
  /\ apply_change Samples.handleAuthentication Samples.invoke
       Samples.lookalike Samples.nowhere
     = Thrown ProtocolViolation Samples.nowhere.
Proof.
  assert (H1 : exists rest, location Samples.lookalike = "$user" +:+ rest)
    by (exists "name"; reflexivity).
  assert (H2 : hd "" (split_slash (location Samples.lookalike)) <> "$user")
    by discriminate.
  split; [exact H1|]. split; [exact H2|].
  exact (proj1 (user_prefix_by_characters Samples.handleAuthentication
                  Samples.invoke Samples.lookalike Samples.nowhere H1 H2)).
Defined.

Lemma get_unknown_reserved_throws_witness :
  char0 (resolve root "$nope") = Some "$"%char
  /\ hd "" (split_slash (resolve root "$nope")) <> "$user"
  /\ hd "" (split_slash (resolve root "$nope")) <> "$lastError"
  /\ get root (Some "$nope") = Throw (UnknownReservedPath "$nope").
Proof.
  assert (H1 : hd "" (split_slash (resolve root "$nope")) <> "$user")
    by discriminate.
  assert (H2 : hd "" (split_slash (resolve root "$nope")) <> "$lastError")
    by discriminate.
  split; [reflexivity|]. split; [exact H1|]. split; [exact H2|].
  exact (proj1 (get_unknown_reserved_throws root (Some "$nope")
                  eq_refl H1 H2)).
Defined.



(** A result that has [then] and no [catch] passes the dispatcher's test
    and then fails at [result.catch]: the step throws, nothing reaches
    [errors$], and the changes after it in the batch are not applied. *)
Lemma then_only_rejection_throws :
  Samples.invoke_then_only [AuthDispatched (value Samples.sign_in)]
    "authWithPassword" [Samples.credentials]
  = Returns ThenOnly
  /\ apply_change Samples.handleAuthentication Samples.invoke_then_only
       Samples.sign_in Samples.nowhere
     = Thrown (TypeError "result.catch is not a function")
         (mkWorld [AuthDispatched Samples.credentials;
                   Invoked "authWithPassword" BaseRef [Samples.credentials]]
            [])
  /\ errors_pushed
       (world_of (apply_change Samples.handleAuthentication
                    Samples.invoke_then_only Samples.sign_in Samples.nowhere))
     = []
  /\ (forall w',
        apply_change Samples.handleAuthentication Samples.invoke_then_only
          Samples.sign_in Samples.nowhere
        <> Done w')
  /\ store_writes
       (log (world_of
               (forEach (apply_change Samples.handleAuthentication
                           Samples.invoke_then_only)
                  [Samples.sign_in; Samples.plain_write] Samples.nowhere)))
     = [].
Proof.
  split; [reflexivity|]. split; [reflexivity|]. split; [reflexivity|].
  split; [intros w'; discriminate | reflexivity].
Qed.

Lemma pick_falsy_null_witness :
  get root (Some "$user/visits") = Normal (Mapped AuthSource (pick ["visits"]))
  /\ VNum 0%float
     = reduce_parts (tl (split_slash (resolve root "$user/visits")))
         Samples.signed_in
  /\ VNum 0%float ∈ [VNum 0%float; VBool false; VStr ""; VNum PrimFloat.nan]
  /\ pick ["visits"] Samples.signed_in = VNull.
Proof.
  assert (H1 : VNum 0%float
               = reduce_parts (tl (split_slash (resolve root "$user/visits")))
                   Samples.signed_in)
    by (vm_compute; reflexivity).
  assert (H2 : VNum 0%float
               ∈ [VNum 0%float; VBool false; VStr ""; VNum PrimFloat.nan])
    by constructor.
  split; [reflexivity|]. split; [exact H1|]. split; [exact H2|].
  exact (proj1 (pick_falsy_null root (Some "$user/visits") AuthSource
                  (pick ["visits"]) Samples.signed_in (VNum 0%float)
                  eq_refl H1) H2).
Defined.

End ClaimInstances.

(** ** Further properties of paths *)

Lemma split_slash_cons (c : ascii) (r : string) :
  split_slash (String c r)
  = if is_slash c then "" :: split_slash r
    else String c (hd "" (split_slash r)) :: tl (split_slash r).
Proof.
  cbn [split_slash]. destruct (is_slash c); [reflexivity|].
  pose proof (split_slash_nonempty r) as H.
  destruct (split_slash r); [contradiction | reflexivity].
Qed.

Lemma split_slash_hd_tl (s : string) :
  split_slash s = hd "" (split_slash s) :: tl (split_slash s).
Proof.
  pose proof (split_slash_nonempty s) as H.
  destruct (split_slash s); [contradiction | reflexivity].
Qed.

Lemma is_slash_eq (c : ascii) : is_slash c = true -> c = "/"%char.
Proof. apply Ascii.eqb_eq. Qed.

(** Splitting at a slash: the segments of both sides. *)
Lemma split_slash_app (x y : string) :
  split_slash (x +:+ String "/" y) = split_slash x ++ split_slash y.
Proof.
  induction x as [|c x IH]; [reflexivity|].
  rewrite append_cons, !split_slash_cons, IH.
  destruct (is_slash c); [reflexivity|].
  rewrite (split_slash_hd_tl x) at 1 2. reflexivity.
Qed.

Lemma split_slash_segment (a : string) :
  has_slash a = false -> split_slash a = [a].
Proof.
  induction a as [|c r IH]; [reflexivity|].
  cbn [has_slash]. intros H. apply orb_false_elim in H as [Hc Hr].
  rewrite split_slash_cons, Hc, (IH Hr). reflexivity.
Qed.

Lemma nonempty_segments_join (x y : string) :
  nonempty_segments (join_path x y)
  = nonempty_segments x ++ nonempty_segments y.
Proof.
  unfold nonempty_segments, join_path.
  change ("/" +:+ y) with (String "/" y).
  now rewrite split_slash_app, List.filter_app.
Qed.

Lemma nonempty_segments_slash (r : string) :
  nonempty_segments (String "/" r) = nonempty_segments r.
Proof. unfold nonempty_segments. now rewrite split_slash_cons. Qed.

Lemma drop_last_slash (s : string) :
  ends_with_slash s = true -> s = drop_last s +:+ "/".
Proof.
  induction s as [|c r IH]; [discriminate|].
  destruct r as [|c2 r2].
  - cbn. intros H. now rewrite (is_slash_eq c H).
  - intros H. change (drop_last (String c (String c2 r2)))
      with (String c (drop_last (String c2 r2))).
    rewrite append_cons. f_equal. apply IH. exact H.
Qed.

Lemma nonempty_segments_strip (s : string) :
  nonempty_segments (strip_edge_slash s) = nonempty_segments s.
Proof.
  destruct s as [|c r]; [reflexivity|]. unfold strip_edge_slash.
  destruct (is_slash c) eqn:Hc.
  - rewrite (is_slash_eq c Hc). symmetry. apply nonempty_segments_slash.
  - destruct (ends_with_slash (String c r)) eqn:He; [|reflexivity].
    rewrite (drop_last_slash _ He) at 2.
    unfold nonempty_segments.
    rewrite (split_slash_app (drop_last (String c r)) ""), List.filter_app.
    cbn. now rewrite app_nil_r.
Qed.

Lemma nonempty_segments_drop_slashes (s : string) :
  nonempty_segments (drop_slashes s) = nonempty_segments s.
Proof.
  induction s as [|c r IH]; [reflexivity|]. cbn [drop_slashes].
  destruct (is_slash c) eqn:Hc; [|reflexivity].
  rewrite IH, (is_slash_eq c Hc). symmetry. apply nonempty_segments_slash.
Qed.

(** Collapsing keeps the first segment and the keys after it. *)
Lemma collapse_segments (s : string) :
  hd "" (split_slash (collapse_first_run s)) = hd "" (split_slash s)
  /\ List.filter (fun seg => negb (String.eqb seg ""))
       (tl (split_slash (collapse_first_run s)))
     = List.filter (fun seg => negb (String.eqb seg "")) (tl (split_slash s)).
Proof.
  induction s as [|c1 r IH]; [split; reflexivity|].
  destruct r as [|c2 r2]; [split; reflexivity|].
  rewrite collapse_first_run_cons.
  destruct (is_slash c1) eqn:H1; cbn [andb].
  - destruct (is_slash c2) eqn:H2.
    + rewrite (split_slash_cons c1), (split_slash_cons c2), H1, H2.
      rewrite (split_slash_cons "/"). cbn [is_slash hd tl].
      change (Ascii.eqb "/" "/") with true. cbn [hd tl].
      split; [reflexivity|]. cbn [List.filter String.eqb negb].
      apply nonempty_segments_drop_slashes.
    + rewrite !(split_slash_cons c1), H1. cbn [hd tl].
      split; [reflexivity|]. destruct IH as [IHh IHt].
      rewrite (split_slash_hd_tl (collapse_first_run (String c2 r2))).
      rewrite (split_slash_hd_tl (String c2 r2)).
      cbn [List.filter]. now rewrite IHh, IHt.
  - rewrite !(split_slash_cons c1), H1. cbn [hd tl].
    destruct IH as [IHh IHt]. now rewrite IHh, IHt.
Qed.

Lemma nonempty_segments_collapse (s : string) :
  nonempty_segments (collapse_first_run s) = nonempty_segments s.
Proof.
  unfold nonempty_segments. destruct (collapse_segments s) as [Hh Ht].
  rewrite (split_slash_hd_tl (collapse_first_run s)), (split_slash_hd_tl s).
  cbn [List.filter]. now rewrite Hh, Ht.
Qed.

Lemma nonempty_segments_trimPath (s : string) :
  nonempty_segments (trimPath s) = nonempty_segments s.
Proof.
  unfold trimPath.
  now rewrite nonempty_segments_collapse, nonempty_segments_strip.
Qed.

Lemma drop_slashes_length (s : string) :
  String.length (drop_slashes s) <= String.length s.
Proof.
  induction s as [|c r IH]; [reflexivity|]. cbn [drop_slashes].
  destruct (is_slash c); [cbn [String.length]; lia | reflexivity].
Qed.

Lemma collapse_length (s : string) :
  String.length (collapse_first_run s) <= String.length s.
Proof.
  induction s as [|c1 r IH]; [reflexivity|].
  destruct r as [|c2 r2]; [reflexivity|].
  rewrite collapse_first_run_cons.
  destruct (is_slash c1 && is_slash c2).
  - pose proof (drop_slashes_length r2). cbn [String.length]. lia.
  - cbn [String.length] in IH |- *. lia.
Qed.

Lemma collapse_shrinks (s : string) :
  no_slash_run s = false ->
  String.length (collapse_first_run s) < String.length s.
Proof.
  induction s as [|c1 r IH]; [discriminate|].
  destruct r as [|c2 r2]; [discriminate|].
  rewrite no_slash_run_cons, collapse_first_run_cons.
  destruct (is_slash c1 && is_slash c2); cbn [negb andb].
  - intros _. pose proof (drop_slashes_length r2). cbn [String.length]. lia.
  - intros H. specialize (IH H). cbn [String.length] in IH |- *. lia.
Qed.

Lemma drop_last_length (s : string) :
  s <> "" -> S (String.length (drop_last s)) = String.length s.
Proof.
  induction s as [|c r IH]; [contradiction|]. intros _.
  destruct r as [|c2 r2]; [reflexivity|].
  change (drop_last (String c (String c2 r2)))
    with (String c (drop_last (String c2 r2))).
  cbn [String.length]. f_equal. now apply IH.
Qed.

Lemma strip_length (s : string) :
  String.length (strip_edge_slash s) <= String.length s.
Proof.
  destruct s as [|c r]; [reflexivity|]. unfold strip_edge_slash.
  destruct (is_slash c); [cbn [String.length]; lia|].
  destruct (ends_with_slash (String c r)); [|reflexivity].
  pose proof (drop_last_length (String c r)) as H.
  rewrite <- H by discriminate. lia.
Qed.

Lemma strip_shrinks (s : string) :
  starts_with_slash s = true \/ ends_with_slash s = true ->
  String.length (strip_edge_slash s) < String.length s.
Proof.
  destruct s as [|c r]; [intros [H|H]; discriminate H|].
  unfold strip_edge_slash. cbn [starts_with_slash].
  destruct (is_slash c); [intros _; cbn [String.length]; lia|].
  intros [H|H]; [discriminate H|]. rewrite H.
  pose proof (drop_last_length (String c r)) as E.
  rewrite <- E by discriminate. lia.
Qed.

Lemma trimPath_length (s : string) :
  String.length (trimPath s) <= String.length s.
Proof.
  unfold trimPath. pose proof (collapse_length (strip_edge_slash s)).
  pose proof (strip_length s). lia.
Qed.

(** A path that is not normalised loses at least one slash. *)
Lemma trimPath_shrinks (s : string) :
  is_normalized s = false -> String.length (trimPath s) < String.length s.
Proof.
  unfold is_normalized, trimPath. intros H.
  pose proof (collapse_length (strip_edge_slash s)) as Hc.
  destruct (starts_with_slash s) eqn:Hs.
  { pose proof (strip_shrinks s (or_introl Hs)). lia. }
  destruct (ends_with_slash s) eqn:He.
  { pose proof (strip_shrinks s (or_intror He)). lia. }
  cbn [negb andb] in H.
  rewrite (strip_no_edge s Hs He). now apply collapse_shrinks.
Qed.

Lemma iter_trimPath_normalized (n : nat) (s : string) :
  is_normalized s = true -> Nat.iter n trimPath s = s.
Proof.
  intros H. induction n as [|n IH]; [reflexivity|].
  rewrite Nat.iter_succ, IH. now apply trimPath_normalized.
Qed.

Lemma iter_trimPath_enough (n : nat) (s : string) :
  String.length s <= n -> is_normalized (Nat.iter n trimPath s) = true.
Proof.
  revert s. induction n as [|n IH]; intros s Hlen.
  - destruct s; [reflexivity | cbn [String.length] in Hlen; lia].
  - destruct (is_normalized s) eqn:Hn.
    + now rewrite iter_trimPath_normalized.
    + rewrite Nat.iter_succ_r. apply IH.
      pose proof (trimPath_shrinks s Hn). lia.
Qed.

(** X1. The paths [trimPath] returns unchanged are exactly the normalised
    ones: without a leading slash, a trailing slash or a repeated slash. *)
Theorem trimPath_fixed_points (s : string) :
  trimPath s = s <-> is_normalized s = true.
Proof.
  split; [|apply trimPath_normalized].
  intros Hfix. destruct (is_normalized s) eqn:Hn; [reflexivity|].
  pose proof (trimPath_shrinks s Hn) as H. rewrite Hfix in H. lia.
Qed.

(** X2. [trimPath] only ever deletes slashes: its result names the same
    keys in the same order as its argument, and is never longer. *)
Theorem trimPath_keeps_segments (s : string) :
  nonempty_segments (trimPath s) = nonempty_segments s
  /\ String.length (trimPath s) <= String.length s.
Proof. split; [apply nonempty_segments_trimPath | apply trimPath_length]. Qed.

(** X3. One pass of [trimPath] may leave slashes behind, but passes add up:
    after as many passes as the path has characters it is normalised, and
    it still names the same keys. *)
Theorem trimPath_iterated_normalizes (s : string) :
  is_normalized (Nat.iter (String.length s) trimPath s) = true
  /\ nonempty_segments (Nat.iter (String.length s) trimPath s)
     = nonempty_segments s.
Proof.
  split; [now apply iter_trimPath_enough|].
  generalize (String.length s) as n. induction n as [|n IH]; [reflexivity|].
  now rewrite Nat.iter_succ, nonempty_segments_trimPath.
Qed.

(** ** Normalised forms *)











(** The normalised form of [/a//b/] is [a/b]. *)
Remark normalize_slashes : normalize "/a//b/" = "a/b".
Proof. reflexivity. Qed.




(** ** Further properties of accessors *)

Section AccessorProperties.

Context {rt : Runtime}.

Lemma drop_last_append_slash (p : string) : drop_last (p +:+ "/") = p.
Proof.
  induction p as [|c r IH]; [reflexivity|].
  rewrite append_cons. destruct r as [|c2 r2]; [reflexivity|].
  rewrite append_cons in IH |- *.
  change (drop_last (String c (String c2 (r2 +:+ "/"))))
    with (String c (drop_last (String c2 (r2 +:+ "/")))).
  now rewrite IH.
Qed.

(** Resolving the empty child path from a normalised path gives it back. *)
Lemma resolve_empty (p : string) :
  is_normalized p = true -> trimPath (join_path p "") = p.
Proof.
  intros Hp. destruct p as [|c r]; [reflexivity|].
  pose proof Hp as Hn. unfold is_normalized in Hn.
  apply andb_prop in Hn as [Hn Hrun]. apply andb_prop in Hn as [Hs He].
  apply negb_true_iff in Hs, He. cbn [starts_with_slash] in Hs.
  unfold trimPath, join_path.
  assert (E : strip_edge_slash (String c r +:+ "/" +:+ "") = String c r).
  { change ("/" +:+ "") with "/". rewrite append_cons.
    unfold strip_edge_slash. rewrite Hs. rewrite <- append_cons.
    rewrite ends_with_slash_append by discriminate.
    cbn [ends_with_slash is_slash].
    change (Ascii.eqb "/" "/") with true. cbv iota.
    apply drop_last_append_slash. }
  rewrite E. now apply collapse_no_run.
Qed.

(** [get] depends on the accessor and the child path through the location
    only. *)
Lemma get_by_location (acc1 acc2 : Accessor) (c1 c2 : option string) :
  resolve acc1 (default "" c1) = resolve acc2 (default "" c2) ->
  get acc1 c1 = get acc2 c2.
Proof. intros H. unfold get. now rewrite H. Qed.

Lemma get_reserved (acc : Accessor) (childPath : option string)
    (dir : string) (parts : list string) (source : Source) :
  split_slash (resolve acc (default "" childPath)) = dir :: parts ->
  specialCaseListeners dir = Some source ->
  get acc childPath = Normal (Mapped source (pick parts)).
Proof.
  intros Hsplit Hdir. unfold get.
  assert (Hc : char0 (resolve acc (default "" childPath)) = Some "$"%char).
  { apply char0_first_segment. rewrite Hsplit.
    now apply specialCaseListeners_dollar with source. }
  rewrite Hc, bool_decide_eq_true_2 by reflexivity. cbn [negb].
  rewrite Hsplit. cbn [hd tl]. now rewrite Hdir.
Qed.

Lemma char0_split_hd (s : string) (c : ascii) :
  char0 s = Some c -> is_slash c = false ->
  char0 (hd "" (split_slash s)) = Some c.
Proof.
  destruct s as [|c0 r]; [discriminate|]. cbn [char0].
  intros [= ->] Hc. now rewrite split_slash_cons, Hc.
Qed.

Lemma nonempty_segments_segment (a : string) :
  is_segment a = true -> nonempty_segments a = [a].
Proof.
  unfold is_segment. intros H. apply andb_prop in H as [Hne Hno].
  apply negb_true_iff in Hno. unfold nonempty_segments.
  rewrite (split_slash_segment a Hno). cbn [List.filter]. now rewrite Hne.
Qed.

(** X4. Whatever the accessor and the two strings, [child(a).child(b)] and
    [child(a + `/` + b)] name the same keys in the same order: those of the
    accessor's path, then those of [a], then those of [b].  The two paths
    can differ in redundant slashes only. *)
Theorem child_composition_same_keys (acc : Accessor) (a b : string) :
  exists q1 q2 : Accessor,
    bind (child acc (VStr a)) (fun q => child q (VStr b)) = Normal q1
    /\ child acc (VStr (a +:+ "/" +:+ b)) = Normal q2
    /\ nonempty_segments (path q1)
       = nonempty_segments (path acc) ++ nonempty_segments a
         ++ nonempty_segments b
    /\ nonempty_segments (path q2) = nonempty_segments (path q1).
Proof.
  eexists. eexists. split; [reflexivity|]. split; [reflexivity|].
  cbn [path]. unfold resolve. cbn [path].
  assert (E1 : nonempty_segments
                 (trimPath (join_path (trimPath (join_path (path acc) a)) b))
               = nonempty_segments (path acc) ++ nonempty_segments a
                 ++ nonempty_segments b).
  { rewrite nonempty_segments_trimPath, nonempty_segments_join.
    rewrite nonempty_segments_trimPath, nonempty_segments_join.
    now rewrite <- app_assoc. }
  split; [exact E1|]. rewrite E1.
  rewrite nonempty_segments_trimPath, nonempty_segments_join.
  f_equal. apply (nonempty_segments_join a b).
Qed.

(** X6. Going down from an accessor on a normalised path by [child], one
    segment at a time, never fails; the accessor reached is on a normalised
    path whose keys are those of the start followed by the segments given.
    From the root, the keys are exactly the segments given. *)
Theorem descend_segments (acc : Accessor) (segs : list string) :
  is_normalized (path acc) = true ->
  Forall (fun a => is_segment a = true) segs ->
  exists q : Accessor,
    descend acc segs = Normal q
    /\ is_normalized (path q) = true
    /\ nonempty_segments (path q) = nonempty_segments (path acc) ++ segs.
Proof.
  intros Hp Hsegs. revert acc Hp.
  induction Hsegs as [|a rest Ha _ IH]; intros acc Hp.
  - exists acc. split; [reflexivity|]. split; [exact Hp|].
    now rewrite app_nil_r.
  - destruct (resolve_segment (path acc) a Hp Ha) as [_ Hn].
    destruct (IH (createChild (resolve acc a)) Hn) as (q & Hq & Hqn & Hqs).
    exists q. split; [exact Hq|]. split; [exact Hqn|].
    rewrite Hqs. cbn [path]. unfold resolve.
    rewrite nonempty_segments_trimPath, nonempty_segments_join.
    rewrite (nonempty_segments_segment a Ha). now rewrite <- app_assoc.
Qed.

(** X7. On an accessor whose path is normalised and does not start with
    [$], [get()] is the value stream of the very handle [ref()] returns;
    at the root that handle is the base handle itself, not a child of
    it. *)
Theorem get_reads_ref (acc : Accessor) :
  is_normalized (path acc) = true ->
  char0 (path acc) <> Some "$"%char ->
  get acc None = Normal (ValueOf (ref acc))
  /\ (path acc = "" -> ref acc = BaseRef)
  /\ (path acc <> "" -> ref acc = ChildOf BaseRef (path acc)).
Proof.
  intros Hp Hd. split; [|split].
  - unfold get.
    change (resolve acc (default "" None))
      with (trimPath (join_path (path acc) "")).
    rewrite (resolve_empty _ Hp).
    rewrite bool_decide_eq_false_2 by exact Hd. reflexivity.
  - intros E. unfold ref. now rewrite E.
  - intros Hne. unfold ref, getFbChild.
    destruct (String.eqb (path acc) "") eqn:E; [|reflexivity].
    apply String.eqb_eq in E. contradiction.
Qed.

(** X8. On an accessor whose path is normalised, scoping by a segment and
    then reading is reading that segment directly: [child(a).get()] is
    [get(a)], whether the location is in the store or under a reserved
    key. *)
Theorem child_then_get (acc : Accessor) (a : string) :
  is_normalized (path acc) = true -> is_segment a = true ->
  bind (child acc (VStr a)) (fun q => get q None) = get acc (Some a).
Proof.
  intros Hp Ha. cbn [child bind].
  apply get_by_location.
  change (trimPath (join_path (resolve acc a) "") = resolve acc a).
  apply resolve_empty. now apply (resolve_segment (path acc) a Hp Ha).
Qed.

(** X9. An accessor scoped under a recognised reserved key reads through
    its own segments first: on the normalised path [dir/seg1/.../segn],
    [get(a)] for a segment [a] is the backing stream of [dir] walked along
    [seg1], ..., [segn], [a]. *)
Theorem get_through_scoped_accessor (acc : Accessor) (a dir : string)
    (parts : list string) (source : Source) :
  is_normalized (path acc) = true ->
  split_slash (path acc) = dir :: parts ->
  specialCaseListeners dir = Some source ->
  is_segment a = true ->
  get acc (Some a) = Normal (Mapped source (pick (parts ++ [a])))
  /\ forall object,
       pick (parts ++ [a]) object
       = js_or (get_prop (js_or (reduce_parts parts object) (VObj ∅)) a) VNull.
Proof.
  intros Hp Hsplit Hdir Ha. split.
  - apply get_reserved with dir; [|exact Hdir].
    change (resolve acc (default "" (Some a)))
      with (trimPath (join_path (path acc) a)).
    destruct (resolve_segment (path acc) a Hp Ha) as [E _]. rewrite E.
    destruct (String.eqb (path acc) "") eqn:Hempty.
    + apply String.eqb_eq in Hempty. rewrite Hempty in Hsplit.
      injection Hsplit as <- _. discriminate Hdir.
    + unfold join_path. change ("/" +:+ a) with (String "/" a).
      rewrite split_slash_app, Hsplit.
      apply andb_prop in Ha as [_ Hno]. apply negb_true_iff in Hno.
      now rewrite (split_slash_segment a Hno).
  - intros object. unfold pick. rewrite reduce_parts_app. reflexivity.
Qed.

(** X10. [uid$] and [get(`$user/uid`)] on the root read the same field of
    the authentication state: the second emits what the first emits, with
    [null] in place of a falsy value; while signed out both emit [null],
    and a truthy uid is emitted alike by both. *)
Theorem uid_stream_agrees (store : FbRef -> list Value)
    (backing : Source -> list Value) :
  exists o : Observable,
    get root (Some "$user/uid") = Normal o
    /\ emissions store backing o
       = map (fun u => js_or u VNull) (emissions store backing uid_stream)
    /\ (forall x, truthy x = false -> uid_of x = VNull)
    /\ (forall x, truthy (uid_of x) = true -> pick ["uid"] x = uid_of x).
Proof.
  assert (E : forall x, pick ["uid"] x = js_or (uid_of x) VNull).
  { intros x. unfold pick, uid_of, reduce_parts. cbn [fold_left].
    unfold js_or at 2. destruct (truthy x); [reflexivity|].
    now rewrite (get_prop_missing ∅ "uid" (lookup_empty _) eq_refl). }
  eexists. split; [reflexivity|]. split; [|split].
  - cbn [emissions uid_stream]. rewrite map_map.
    apply map_ext. intros x. apply E.
  - intros x Hx. unfold uid_of. now rewrite Hx.
  - intros x Hx. rewrite E. unfold js_or. now rewrite Hx.
Qed.

(** X11. The only exception [get] raises is the unknown-key error, and only
    for a location whose first segment starts with [$] and is neither
    [$user] nor [$lastError]; every other call returns a stream. *)
Theorem get_only_error (acc : Accessor) (childPath : option string)
    (e : Exn) :
  get acc childPath = Throw e ->
  exists dir,
    e = UnknownReservedPath dir
    /\ dir = hd "" (split_slash (resolve acc (default "" childPath)))
    /\ char0 dir = Some "$"%char
    /\ dir <> "$user" /\ dir <> "$lastError".
Proof.
  unfold get.
  destruct (bool_decide (char0 (resolve acc (default "" childPath))
                         = Some "$"%char)) eqn:Hd; cbn [negb];
    [|discriminate].
  apply bool_decide_eq_true_1 in Hd.
  destruct (specialCaseListeners _) eqn:Hs; [discriminate|].
  intros [= <-]. eexists. split; [reflexivity|]. split; [reflexivity|].
  split; [now apply char0_split_hd|].
  split; intros Heq; rewrite Heq in Hs; discriminate Hs.
Qed.

End AccessorProperties.

(** ** Further properties of the dispatcher *)

Section DispatcherInvariants.

Context {Method : Type}.
Context (handleAuthentication : Value -> Completion (Method * list Value)).
Context (invoke : list (@Effect Method) -> Method -> list Value -> CallResult).
Context (getChanges : Value -> Value -> list ChangeOp).

Local Abbreviation step := (apply_change handleAuthentication invoke).
Local Abbreviation in_order := (apply_in_order handleAuthentication invoke).
Local Abbreviation run := (timeDriver handleAuthentication invoke getChanges).

Lemma store_writes_app (xs ys : list (@Effect Method)) :
  store_writes (xs ++ ys) = store_writes xs ++ store_writes ys.
Proof. unfold store_writes. apply omap_app. Qed.

(** What one step adds to the store writes, however it ends. *)
Lemma step_store_writes (c : ChangeOp) (w : World) :
  store_writes (log (world_of (step c w)))
  = store_writes (log w) ++ (if is_store_change c then [to_write c] else []).
Proof.
  unfold apply_change, is_store_change.
  destruct (String.eqb (slice 0 5 (location c)) "$user"); cbn [negb].
  - destruct (negb (String.eqb (location c) "$user"));
      [cbn [world_of]; now rewrite app_nil_r|].
    destruct (handleAuthentication (value c)) as [[method args]|e];
      cbn [world_of record log];
      [|rewrite store_writes_app; reflexivity].
    destruct (invoke _ method args) as [[|fate|]|e];
      cbn [world_of record watch log];
      rewrite !store_writes_app; cbn; now rewrite !app_nil_r.
  - cbn [world_of record log]. now rewrite store_writes_app.
Qed.

Lemma step_thrown_not_store (c : ChangeOp) (w w' : World) (e : Exn) :
  step c w = Thrown e w' -> is_store_change c = false.
Proof.
  unfold apply_change, is_store_change.
  destruct (String.eqb (slice 0 5 (location c)) "$user");
    [reflexivity | discriminate].
Qed.

Lemma step_watched (c : ChangeOp) (w : World) :
  location c <> "$user" -> watched (world_of (step c w)) = watched w.
Proof.
  intros Hne. unfold apply_change.
  destruct (String.eqb (slice 0 5 (location c)) "$user"); [|reflexivity].
  destruct (String.eqb (location c) "$user") eqn:E; [|reflexivity].
  apply String.eqb_eq in E. contradiction.
Qed.

Lemma in_order_done_writes (changes : list ChangeOp) (w w' : World) :
  in_order changes w = Done w' ->
  store_writes (log w')
  = store_writes (log w)
    ++ map to_write (List.filter is_store_change changes).
Proof.
  revert w. induction changes as [|c rest IH]; intros w; cbn [apply_in_order].
  - intros [= <-]. cbn. now rewrite app_nil_r.
  - pose proof (step_store_writes c w) as Hc.
    destruct (step c w) as [w1|e w1]; [|discriminate].
    intros Hrest. rewrite (IH _ Hrest). cbn [world_of] in Hc. rewrite Hc.
    cbn [List.filter]. destruct (is_store_change c); cbn [map];
      now rewrite <- app_assoc.
Qed.

Lemma in_order_writes_prefix (changes : list ChangeOp) (w : World) :
  exists k,
    store_writes (log (world_of (in_order changes w)))
    = store_writes (log w)
      ++ map to_write (List.filter is_store_change (take k changes)).
Proof.
  revert w. induction changes as [|c rest IH]; intros w; cbn [apply_in_order].
  - exists 0. cbn. now rewrite app_nil_r.
  - pose proof (step_store_writes c w) as Hc.
    destruct (step c w) as [w1|e w1]; cbn [world_of] in Hc.
    + destruct (IH w1) as [k Hk]. exists (S k). rewrite Hk, Hc.
      cbn [take List.filter]. destruct (is_store_change c); cbn [map];
        now rewrite <- app_assoc.
    + exists 1. cbn [world_of take List.filter]. rewrite Hc.
      destruct (is_store_change c); reflexivity.
Qed.

Lemma changes_from_snoc (prev next : Value) (source : list Value) :
  changes_from getChanges prev (source ++ [next])
  = changes_from getChanges prev source
    ++ getChanges (default prev (last source)) next.
Proof.
  revert prev. induction source as [|s rest IH]; intros prev.
  - cbn. now rewrite app_nil_r.
  - cbn [app changes_from]. rewrite IH, <- app_assoc. do 3 f_equal.
    destruct rest as [|s2 rest2]; [reflexivity|].
    change (last (s :: s2 :: rest2)) with (last (s2 :: rest2)).
    destruct (last (s2 :: rest2)) eqn:E; [reflexivity|].
    apply last_None in E. discriminate E.
Qed.

Lemma run_in_order (source : list Value) (w : World) :
  run source w = in_order (changes_from getChanges (VObj ∅) source) w.
Proof. apply subscribe_pairs. Qed.

(** X12. The first exception ends everything: when the changes before [c]
    in a batch have been applied and [c] throws, the batch stops there with
    that exception, the remaining changes of the batch and all later
    batches are not applied, and the store writes of the changes before
    [c] stay made. *)
Theorem first_exception_aborts (first rest : list ChangeOp) (c : ChangeOp)
    (w w1 w2 : World) (e : Exn) :
  forEach step first w = Done w1 ->
  step c w1 = Thrown e w2 ->
  forEach step (first ++ c :: rest) w = Thrown e w2
  /\ (forall later,
        subscribe (fun changes => forEach step changes)
          ((first ++ c :: rest) :: later) w
        = Thrown e w2)
  /\ store_writes (log w2)
     = store_writes (log w)
       ++ map to_write (List.filter is_store_change first).
Proof.
  intros Hfirst Hc. rewrite forEach_apply_in_order in Hfirst.
  assert (E : forEach step (first ++ c :: rest) w = Thrown e w2).
  { rewrite forEach_apply_in_order, apply_in_order_app, Hfirst.
    cbn [apply_in_order]. now rewrite Hc. }
  split; [exact E|]. split.
  - intros later. cbn [subscribe]. now rewrite E.
  - pose proof (step_store_writes c w1) as Hw. rewrite Hc in Hw.
    cbn [world_of] in Hw. rewrite Hw, (step_thrown_not_store c w1 w2 e Hc).
    rewrite app_nil_r. now apply in_order_done_writes.
Qed.

(** X13. The dispatcher works snapshot by snapshot: what a further snapshot
    adds to a run is the changes between the last snapshot before it (the
    empty tree when there is none) and itself, applied to the world the
    run so far has left; after an exception a further snapshot adds
    nothing. *)
Theorem timeDriver_incremental (source : list Value) (next : Value)
    (w : World) :
  run (source ++ [next]) w
  = match run source w with
    | Done w' =>
        forEach step (getChanges (default (VObj ∅) (last source)) next) w'
    | Thrown e w' => Thrown e w'
    end.
Proof.
  rewrite !run_in_order, changes_from_snoc, apply_in_order_app.
  destruct (in_order _ w); [|reflexivity].
  symmetry. apply forEach_apply_in_order.
Qed.

(** X14. Whatever the collaborators do, the store only receives changes
    that [getChanges] returned, each at its own location and with its own
    value, in the order returned and without gaps: the writes of a run are
    those of the changes outside [$user] among the first [k] changes, for
    some [k]; when the run ends without an exception, among all of them. *)
Theorem store_writes_are_changes (source : list Value) (w : World) :
  (exists k,
     store_writes (log (world_of (run source w)))
     = store_writes (log w)
       ++ map to_write
            (List.filter is_store_change
               (take k (changes_from getChanges (VObj ∅) source))))
  /\ (forall w',
        run source w = Done w' ->
        store_writes (log w')
        = store_writes (log w)
          ++ map to_write
               (List.filter is_store_change
                  (changes_from getChanges (VObj ∅) source))).
Proof.
  rewrite run_in_order. split.
  - apply in_order_writes_prefix.
  - intros w'. apply in_order_done_writes.
Qed.

(** X15. The [catch] callback is attached for changes at exactly [$user]
    only: a run none of whose changes is at [$user] watches no further
    promise and pushes nothing further onto [errors$], however it ends. *)
Theorem no_sign_in_no_errors (source : list Value) (w : World) :
  Forall (fun c => location c <> "$user")
    (changes_from getChanges (VObj ∅) source) ->
  watched (world_of (run source w)) = watched w
  /\ errors_pushed (world_of (run source w)) = errors_pushed w.
Proof.
  intros Hall. rewrite run_in_order.
  assert (E : watched (world_of
                (in_order (changes_from getChanges (VObj ∅) source) w))
              = watched w).
  { revert w. induction Hall as [|c rest Hc _ IH]; intros w;
      cbn [apply_in_order]; [reflexivity|].
    pose proof (step_watched c w Hc) as Hw.
    destruct (step c w) as [w1|e w1]; cbn [world_of] in Hw |- *;
      [now rewrite IH | exact Hw]. }
  split; [exact E|]. unfold errors_pushed. now rewrite E.
Qed.

End DispatcherInvariants.

(** ** The further properties at concrete inputs *)

Section FurtherInstances.

#[local] Existing Instance Samples.runtime.

Lemma child_composition_normalized_witness :
  is_normalized (path (createChild "users")) = true
  /\ is_segment "ann" = true
  /\ is_segment "name" = true
  /\ bind (child (createChild "users") (VStr "ann"))
       (fun q => child q (VStr "name"))
     = child (createChild "users") (VStr ("ann" +:+ "/" +:+ "name")).
Proof.
  split; [reflexivity|]. split; [reflexivity|]. split; [reflexivity|].
  exact (proj1 (child_composition_normalized (createChild "users")
                  "ann" "name" eq_refl eq_refl eq_refl)).
Defined.

Lemma descend_segments_witness :
  is_normalized (path root) = true
  /\ Forall (fun a => is_segment a = true) ["users"; "ann"]
  /\ exists q : Accessor,
       descend root ["users"; "ann"] = Normal q
       /\ is_normalized (path q) = true
       /\ nonempty_segments (path q)
          = nonempty_segments (path root) ++ ["users"; "ann"].
Proof.
  assert (H : Forall (fun a => is_segment a = true) ["users"; "ann"])
    by (repeat constructor).
  split; [reflexivity|]. split; [exact H|].
  exact (descend_segments root ["users"; "ann"] eq_refl H).
Defined.

Lemma get_reads_ref_witness :
  is_normalized (path (createChild "users/ann")) = true
  /\ char0 (path (createChild "users/ann")) <> Some "$"%char
  /\ get (createChild "users/ann") None
     = Normal (ValueOf (ChildOf BaseRef "users/ann")).
Proof.
  assert (H : char0 (path (createChild "users/ann")) <> Some "$"%char)
    by discriminate.
  split; [reflexivity|]. split; [exact H|].
  exact (proj1 (get_reads_ref (createChild "users/ann") eq_refl H)).
Defined.

Lemma child_then_get_witness :
  is_normalized (path (createChild "users")) = true
  /\ is_segment "ann" = true
  /\ bind (child (createChild "users") (VStr "ann")) (fun q => get q None)
     = get (createChild "users") (Some "ann").
Proof.
  split; [reflexivity|]. split; [reflexivity|].
  exact (child_then_get (createChild "users") "ann" eq_refl eq_refl).
Defined.

Lemma get_through_scoped_accessor_witness :
  is_normalized (path (createChild "$user/profile")) = true
  /\ split_slash (path (createChild "$user/profile")) = "$user" :: ["profile"]
  /\ specialCaseListeners "$user" = Some AuthSource
  /\ is_segment "name" = true
  /\ get (createChild "$user/profile") (Some "name")
     = Normal (Mapped AuthSource (pick (["profile"] ++ ["name"]))).
Proof.
  split; [reflexivity|]. split; [reflexivity|]. split; [reflexivity|].
  split; [reflexivity|].
  exact (proj1 (get_through_scoped_accessor (createChild "$user/profile")
                  "name" "$user" ["profile"] AuthSource
                  eq_refl eq_refl eq_refl eq_refl)).
Defined.

Lemma get_only_error_witness :
  get root (Some "$nope") = Throw (UnknownReservedPath "$nope")
  /\ exists dir,
       UnknownReservedPath "$nope" = UnknownReservedPath dir
       /\ dir = hd "" (split_slash (resolve root (default "" (Some "$nope"))))
       /\ char0 dir = Some "$"%char
       /\ dir <> "$user" /\ dir <> "$lastError".
Proof.
  split; [reflexivity|].
  exact (get_only_error root (Some "$nope") (UnknownReservedPath "$nope")
           eq_refl).
Defined.

Lemma first_exception_aborts_witness :
  forEach (apply_change Samples.handleAuthentication Samples.invoke)
    [Samples.plain_write] Samples.nowhere
  = Done (record (StoreSet (ChildOf BaseRef "users/ann") (VStr "Ann"))
            Samples.nowhere)
  /\ apply_change Samples.handleAuthentication Samples.invoke
       Samples.deep_write
       (record (StoreSet (ChildOf BaseRef "users/ann") (VStr "Ann"))
          Samples.nowhere)
     = Thrown ProtocolViolation
         (record (StoreSet (ChildOf BaseRef "users/ann") (VStr "Ann"))
            Samples.nowhere)
  /\ forEach (apply_change Samples.handleAuthentication Samples.invoke)
       ([Samples.plain_write] ++ Samples.deep_write :: [Samples.plain_write])
       Samples.nowhere
     = Thrown ProtocolViolation
         (record (StoreSet (ChildOf BaseRef "users/ann") (VStr "Ann"))
            Samples.nowhere).
Proof.
  split; [reflexivity|]. split; [reflexivity|].
  exact (proj1 (first_exception_aborts Samples.handleAuthentication
                  Samples.invoke [Samples.plain_write] [Samples.plain_write]
                  Samples.deep_write Samples.nowhere _ _ ProtocolViolation
                  eq_refl eq_refl)).
Defined.

Lemma no_sign_in_no_errors_witness :
  Forall (fun c => location c <> "$user")
    (changes_from Samples.getChanges (VObj ∅) [VStr "one"; VStr "two"])
  /\ errors_pushed
       (world_of (timeDriver Samples.handleAuthentication Samples.invoke
                    Samples.getChanges [VStr "one"; VStr "two"]
                    Samples.nowhere))
     = errors_pushed Samples.nowhere.
Proof.
  assert (H : Forall (fun c => location c <> "$user")
                (changes_from Samples.getChanges (VObj ∅)
                   [VStr "one"; VStr "two"]))
    by (repeat constructor; discriminate).
  split; [exact H|].
  exact (proj2 (no_sign_in_no_errors Samples.handleAuthentication
                  Samples.invoke Samples.getChanges
                  [VStr "one"; VStr "two"] Samples.nowhere H)).
Defined.

End FurtherInstances.
